(** * Instruction emission of the template pipeline, and module scope resolution

    A shallow embedding of
    [packages/compiler/src/template/pipeline/src/instruction.ts]: the helpers
    that build calls to the runtime instructions, together with the slice of
    the output AST ([o.literal], [o.literalArr], [o.importExpr], [callFn],
    [toStmt]) and of the IR ([ir.createStatementOp]) those helpers go through.
    The second part models the module scope resolver that
    [packages/compiler-cli/src/ngtsc/scope/index.ts] re-exports. *)

From stdpp Require Import base numbers list strings gmap.

Local Open Scope string_scope.
Local Open Scope list_scope.

(** ** Errors

    [throw new Error(msg)] aborts the helper: a computation either returns a
    value or throws a message, and nothing after a throw is evaluated. *)

Inductive Result (A : Type) : Type :=
| Ok (value : A)
| Throw (message : string).

Arguments Ok {A} value.
Arguments Throw {A} message.

#[global] Instance Result_bind : MBind Result := fun A B k r =>
  match r with
  | Ok a => k a
  | Throw msg => Throw msg
  end.

Definition returns {A : Type} (r : Result A) : Prop := exists a, r = Ok a.

(** ** Instruction references *)

Module Identifiers.

(** Modelled from the spec: [render3/r3_identifiers] is not among the
    sources. An instruction reference is "an external, stable symbol
    identifying a runtime primitive", "an abstract symbol/handle type with
    identity equality": one symbol per [Identifiers] member that
    instruction.ts names. *)
Inductive ExternalReference : Set :=
| element | elementStart | elementEnd
| elementContainerStart | elementContainer | elementContainerEnd
| templateCreate | listener | advance | reference | nextContext
| getCurrentView | restoreView | resetView | text | property
| textInterpolate | textInterpolate1 | textInterpolate2 | textInterpolate3
| textInterpolate4 | textInterpolate5 | textInterpolate6 | textInterpolate7
| textInterpolate8 | textInterpolateV.

#[global] Instance ExternalReference_eq_dec : EqDecision ExternalReference.
Proof. solve_decision. Defined.

End Identifiers.

Abbreviation ExternalReference := Identifiers.ExternalReference.

(** ** Output AST

    The values [o.literal] is applied to in instruction.ts: numbers (slots,
    deltas, step counts and table indices, all integral), strings, [null]
    (an absent constant index) and [undefined] (an array read past the
    end). *)

Inductive LiteralValue : Type :=
| LNumber (n : Z)
| LString (s : string)
| LNull
| LUndefined.

(** [o.Expression]. [ReadVarExpr] stands for the expressions callers pass in
    (interpolated expressions, handler functions, saved views); the helpers
    never inspect them. *)
#[warnings="-register-all"]
Inductive Expression : Type :=
| LiteralExpr (value : LiteralValue)
| LiteralArrayExpr (entries : list Expression)
| ExternalExpr (value : ExternalReference)
| InvokeFunctionExpr (fn : Expression) (args : list Expression)
| ReadVarExpr (name : string).

Inductive Statement : Type :=
| ExpressionStatement (expr : Expression).

Definition literalArr (values : list Expression) : Expression := LiteralArrayExpr values.
Definition importExpr (id : ExternalReference) : Expression := ExternalExpr id.
Definition callFn (fn : Expression) (params : list Expression) : Expression :=
  InvokeFunctionExpr fn params.
Definition toStmt (e : Expression) : Statement := ExpressionStatement e.

(** [o.literal] at the types it is used at. *)
Definition literalNumber (n : Z) : Expression := LiteralExpr (LNumber n).
Definition literalString (s : string) : Expression := LiteralExpr (LString s).

(** [o.literal(x)] for [x : number|null]. *)
Definition literalNullable (x : option Z) : Expression :=
  match x with
  | Some n => LiteralExpr (LNumber n)
  | None => LiteralExpr LNull
  end.

(** [o.literal(strings[idx])]: reading past the end of a JS array gives
    [undefined]. *)
Definition literalAt (strings : list string) (idx : nat) : Expression :=
  match strings !! idx with
  | Some s => LiteralExpr (LString s)
  | None => LiteralExpr LUndefined
  end.

(** ** IR operations

    [ir.createStatementOp] wraps a statement in an operation; [ir.CreateOp]
    and [ir.UpdateOp] are both views of it. *)

Inductive Operation : Type :=
| StatementOp (statement : Statement).

Definition createStatementOp (s : Statement) : Operation := StatementOp s.

(** The arguments a call expression passes. *)
Definition callArgs (e : Expression) : list Expression :=
  match e with
  | InvokeFunctionExpr _ args => args
  | _ => []
  end.

Definition opExpr (op : Operation) : Expression :=
  match op with
  | StatementOp (ExpressionStatement e) => e
  end.

Definition opArgs (op : Operation) : list Expression := callArgs (opExpr op).

(** The instruction a call expression targets: the reference under
    [o.importExpr(...).callFn(...)]. *)
Definition callee (e : Expression) : option ExternalReference :=
  match e with
  | InvokeFunctionExpr (ExternalExpr id) _ => Some id
  | _ => None
  end.

(** ** instruction.ts *)

Module Instruction.

Definition call (instruction : ExternalReference) (args : list Expression) : Operation :=
  createStatementOp (toStmt (callFn (importExpr instruction) args)).

Definition elementOrContainerBase
    (instruction : ExternalReference) (slot : Z) (tag : option string)
    (constIndex localRefIndex : option Z) : Operation :=
  let args := [literalNumber slot] in
  let args :=
    match tag with
    | Some t => args ++ [literalString t]
    | None => args
    end in
  let args :=
    match localRefIndex with
    | Some l => args ++ [literalNullable constIndex; literalNumber l]
    | None =>
        match constIndex with
        | Some c => args ++ [literalNumber c]
        | None => args
        end
    end in
  call instruction args.

Definition element (slot : Z) (tag : string) (constIndex localRefIndex : option Z)
    : Operation :=
  elementOrContainerBase Identifiers.element slot (Some tag) constIndex localRefIndex.

Definition elementStart (slot : Z) (tag : string) (constIndex localRefIndex : option Z)
    : Operation :=
  elementOrContainerBase Identifiers.elementStart slot (Some tag) constIndex localRefIndex.

Definition elementEnd : Operation := call Identifiers.elementEnd [].

Definition elementContainerStart (slot : Z) (constIndex localRefIndex : option Z)
    : Operation :=
  elementOrContainerBase Identifiers.elementContainerStart slot None constIndex localRefIndex.

Definition elementContainer (slot : Z) (constIndex localRefIndex : option Z)
    : Operation :=
  elementOrContainerBase Identifiers.elementContainer slot None constIndex localRefIndex.

Definition elementContainerEnd : Operation := call Identifiers.elementContainerEnd [].

Definition template (slot : Z) (templateFnRef : Expression) (decls vars : Z)
    (tag : string) (constIndex : Z) : Operation :=
  call Identifiers.templateCreate [
    literalNumber slot;
    templateFnRef;
    literalNumber decls;
    literalNumber vars;
    literalString tag;
    literalNumber constIndex
  ].

Definition listener (name : string) (handlerFn : Expression) : Operation :=
  call Identifiers.listener [literalString name; handlerFn].

Definition advance (delta : Z) : Operation :=
  call Identifiers.advance [literalNumber delta].

Definition reference (slot : Z) : Expression :=
  callFn (importExpr Identifiers.reference) [literalNumber slot].

Definition nextContext (steps : Z) : Expression :=
  callFn (importExpr Identifiers.nextContext)
         (if bool_decide (steps = 1%Z) then [] else [literalNumber steps]).

Definition getCurrentView : Expression :=
  callFn (importExpr Identifiers.getCurrentView) [].

Definition restoreView (savedView : Expression) : Expression :=
  callFn (importExpr Identifiers.restoreView) [savedView].

Definition resetView (returnValue : Expression) : Expression :=
  callFn (importExpr Identifiers.resetView) [returnValue].

Definition text (slot : Z) (initialValue : string) : Operation :=
  let args := [literalNumber slot] in
  let args :=
    if bool_decide (initialValue <> "") then args ++ [literalString initialValue]
    else args in
  call Identifiers.text args.

Definition property (name : string) (expression : Expression) : Operation :=
  call Identifiers.property [literalString name; expression].

(** *** Variadic instructions *)

(** [mapping] is applied to an array length and its result indexes an
    array: both are natural numbers. *)
Record VariadicInstructionConfig : Type := {
  constant : list ExternalReference;
  variable : option ExternalReference;
  mapping : nat -> Result nat;
}.

Definition TEXT_INTERPOLATE_CONFIG : VariadicInstructionConfig := {|
  constant := [
    Identifiers.textInterpolate;
    Identifiers.textInterpolate1;
    Identifiers.textInterpolate2;
    Identifiers.textInterpolate3;
    Identifiers.textInterpolate4;
    Identifiers.textInterpolate5;
    Identifiers.textInterpolate6;
    Identifiers.textInterpolate7;
    Identifiers.textInterpolate8
  ];
  variable := Some Identifiers.textInterpolateV;
  mapping := fun n =>
    if (n mod 2 =? 0)%nat then Throw "Expected odd number of arguments"
    else Ok ((n - 1) / 2)%nat;
|}.

(** [config.constant[n]] is defined exactly when [n < config.constant.length],
    so the length test and the read are one lookup. *)
Definition callVariadicInstructionExpr
    (config : VariadicInstructionConfig) (baseArgs interpolationArgs : list Expression)
    : Result Expression :=
  n ← mapping config (length interpolationArgs);
  match constant config !! n with
  | Some instruction =>
      Ok (callFn (importExpr instruction) (baseArgs ++ interpolationArgs))
  | None =>
      match variable config with
      | Some instruction =>
          Ok (callFn (importExpr instruction) (baseArgs ++ [literalArr interpolationArgs]))
      | None => Throw "AssertionError: unable to call variadic function"
      end
  end.

Definition callVariadicInstruction
    (config : VariadicInstructionConfig) (baseArgs interpolationArgs : list Expression)
    : Result Operation :=
  e ← callVariadicInstructionExpr config baseArgs interpolationArgs;
  Ok (createStatementOp (toStmt e)).

(** The [for] loop of [textInterpolate]: [pending] are the expressions from
    position [idx] on; the loop returns the final [idx] with the list. *)
Fixpoint interpolationLoop (strings : list string) (pending : list Expression)
    (idx : nat) (interpolationArgs : list Expression) : nat * list Expression :=
  match pending with
  | [] => (idx, interpolationArgs)
  | e :: rest =>
      interpolationLoop strings rest (S idx)
        (interpolationArgs ++ [literalAt strings idx; e])
  end.

(** The general pattern: a string literal before every expression, and the
    last string ([idx] points at it after the loop). *)
Definition interleavedArgs (strings : list string) (expressions : list Expression)
    : list Expression :=
  let '(idx, interpolationArgs) := interpolationLoop strings expressions 0 [] in
  interpolationArgs ++ [literalAt strings idx].

(** The [interpolationArgs] that [textInterpolate] hands to the collapser:
    [expressions.length === 1] with both strings empty pushes
    [expressions[0]] alone. *)
Definition interpolationArgsOf (strings : list string) (expressions : list Expression)
    : list Expression :=
  match expressions with
  | [e] =>
      if bool_decide (strings !! 0%nat = Some "") && bool_decide (strings !! 1%nat = Some "")
      then [e]
      else interleavedArgs strings expressions
  | _ => interleavedArgs strings expressions
  end.

Definition textInterpolate (strings : list string) (expressions : list Expression)
    : Result Operation :=
  if bool_decide (length strings < 1)%nat
     || bool_decide (Z.of_nat (length expressions) <> (Z.of_nat (length strings) - 1)%Z)
  then
    Throw "AssertionError: expected specific shape of args for strings/expressions in interpolation"
  else
    callVariadicInstruction TEXT_INTERPOLATE_CONFIG [] (interpolationArgsOf strings expressions).

End Instruction.

(** ** Interleaving, as the specification words it

    "strings[0], expressions[0], strings[1], ..., strings[K]": the
    general interpolation pattern, written by recursion on both lists
    rather than with the index loop of the source. *)
Fixpoint interleave (strings : list string) (expressions : list Expression)
    : list Expression :=
  match strings, expressions with
  | s :: strings', e :: expressions' =>
      literalString s :: e :: interleave strings' expressions'
  | s :: _, [] => [literalString s]
  | [], _ => []
  end.

(** The degenerate single-value pattern: one expression between two empty
    strings. *)
Definition degenerate (strings : list string) (expressions : list Expression) : Prop :=
  length expressions = 1 /\ strings = [""; ""].

(** ** Module scope resolution *)

Module Scope.

Abbreviation ModuleId := string.
Abbreviation Symbol := string.

(** Modelled from the spec: [ngtsc/scope/src/local] (the
    [LocalModuleScopeRegistry] that index.ts re-exports) is not among the
    sources. A module declaration record holds the "declared symbols,
    import list, export list" of one module. *)
Record ModuleNode : Type := {
  declared : list Symbol;
  imports : list ModuleId;
  exports : list Symbol;
}.

(** Modelled from the spec: the export boundary of [ngtsc/scope/src/local].
    Of the symbols known for a module, an importer sees the "exported - not
    merely declared" ones. *)
Definition exportedSymbols (node : ModuleNode) (known : list Symbol) : list Symbol :=
  filter (fun x => x ∈ exports node) known.

(** Modelled from the spec: what one import of [ngtsc/scope/src/local]'s
    resolver contributes. "A node mid-resolution when revisited
    contributes its already-known partial/declared set"; any other module
    is resolved in turn ([resolveRec]), with the set of modules in
    progress passed along. A module that was never registered contributes
    nothing. *)
Definition importedSymbols (graph : gmap ModuleId ModuleNode) (inProgress : gset ModuleId)
    (resolveRec : gset ModuleId -> ModuleId -> option (list Symbol)) (i : ModuleId)
    : option (list Symbol) :=
  match graph !! i with
  | None => Some []
  | Some imported =>
      known ← (if decide (i ∈ inProgress) then Some (declared imported)
               else resolveRec inProgress i);
      Some (exportedSymbols imported known)
  end.

(** Modelled from the spec: the resolver of [ngtsc/scope/src/local].
    "Resolution for a module computes the closure: own declared symbols
    united with (for each imported module, its exported symbols),
    deduplicated by identity", with "visited-set tracking so a module's
    own in-progress resolution is not re-entered". [fuel] bounds the depth
    of the traversal; [None] means the bound was hit before the traversal
    ended. *)
Fixpoint resolveFrom (fuel : nat) (graph : gmap ModuleId ModuleNode)
    (visited : gset ModuleId) (m : ModuleId) : option (list Symbol) :=
  match fuel with
  | O => None
  | S fuel' =>
      match graph !! m with
      | None => Some []
      | Some node =>
          contributions ←
            mapM (importedSymbols graph ({[m]} ∪ visited) (resolveFrom fuel' graph))
                 (imports node);
          Some (remove_dups (declared node ++ concat contributions))
      end
  end.

(** Modelled from the spec: [resolve(moduleId)] of
    [ngtsc/scope/src/local], started with nothing visited. The traversal
    never goes deeper than the number of registered modules. *)
Definition resolve (graph : gmap ModuleId ModuleNode) (m : ModuleId)
    : option (list Symbol) :=
  resolveFrom (S (size graph)) graph ∅ m.

(** The exported symbols of import [i] as seen while the modules of
    [inProgress] are being resolved. *)
Definition exportedScope (graph : gmap ModuleId ModuleNode) (inProgress : gset ModuleId)
    (i : ModuleId) : option (list Symbol) :=
  importedSymbols graph inProgress (resolveFrom (S (size graph)) graph) i.

(** The graph with the cycle A -> B -> A. *)
Definition cycleAB (nodeA nodeB : ModuleNode) : gmap ModuleId ModuleNode :=
  <["A" := nodeA]> (<["B" := nodeB]> ∅).

(** Two modules that import each other; [moduleB] lists a symbol it
    declares twice and exports symbols of [moduleA]. *)
Definition moduleA : ModuleNode :=
  {| declared := ["a1"; "a2"]; imports := ["B"]; exports := ["a1"] |}.
Definition moduleB : ModuleNode :=
  {| declared := ["b1"; "b2"; "b1"]; imports := ["A"];
     exports := ["b1"; "a1"; "a2"] |}.

End Scope.

(** * Properties of instruction.ts *)

Section InstructionProperties.

Import Instruction.

Lemma literalAt_middle (pre rest : list string) (s : string) :
  literalAt (pre ++ s :: rest) (length pre) = literalString s.
Proof. unfold literalAt. by rewrite list_lookup_middle. Qed.

Lemma interpolationLoop_spec (pending : list Expression) :
  forall (pre rest : list string) (acc : list Expression),
    length rest = S (length pending) ->
    exists body,
      interpolationLoop (pre ++ rest) pending (length pre) acc
        = (length pre + length pending, acc ++ body)
      /\ body ++ [literalAt (pre ++ rest) (length pre + length pending)]
         = interleave rest pending.
Proof.
  induction pending as [|e pending IH]; intros pre rest acc Hlen.
  - exists []. simpl. rewrite app_nil_r, Nat.add_0_r. split; [done|].
    destruct rest as [|s [|? ?]]; simplify_eq/=.
    by rewrite literalAt_middle.
  - destruct rest as [|s rest]; simplify_eq/=.
    destruct (IH (pre ++ [s]) rest (acc ++ [literalAt (pre ++ s :: rest) (length pre); e]))
      as (body & Hloop & Hbody); [done|].
    rewrite <- app_assoc in Hloop, Hbody. simpl in Hloop, Hbody.
    rewrite length_app in Hloop, Hbody. simpl in Hloop, Hbody.
    replace (length pre + 1) with (S (length pre)) in Hloop, Hbody by lia.
    exists (literalAt (pre ++ s :: rest) (length pre) :: e :: body).
    rewrite Hloop. split.
    + f_equal; [lia|]. by rewrite <- app_assoc.
    + simpl. replace (length pre + S (length pending)) with
        (S (length pre) + length pending) by lia.
      rewrite Hbody. f_equal. apply literalAt_middle.
Qed.

Lemma interleavedArgs_interleave (strings : list string) (expressions : list Expression) :
  length strings = S (length expressions) ->
  interleavedArgs strings expressions = interleave strings expressions.
Proof.
  intros Hlen. unfold interleavedArgs.
  destruct (interpolationLoop_spec expressions [] strings [] Hlen) as (body & Hloop & Hbody).
  simpl in Hloop, Hbody. by rewrite Hloop.
Qed.

Lemma length_interleave (strings : list string) (expressions : list Expression) :
  length strings = S (length expressions) ->
  length (interleave strings expressions) = 2 * length expressions + 1.
Proof.
  revert expressions.
  induction strings as [|s strings IH]; intros [|e expressions] Hlen; simplify_eq/=; try done.
  rewrite IH by done. lia.
Qed.

Lemma interleave_lookup_string (strings : list string) (expressions : list Expression)
    (i : nat) (s : string) :
  length strings = S (length expressions) ->
  strings !! i = Some s ->
  interleave strings expressions !! (2 * i) = Some (literalString s).
Proof.
  revert expressions i.
  induction strings as [|s0 strings IH]; intros [|e expressions] i Hlen Hi;
    simplify_eq/=.
  - destruct strings; [|done]. destruct i; by simplify_eq/=.
  - destruct i as [|i]; simplify_eq/=; [done|].
    replace (i + S (i + 0)) with (S (2 * i)) by lia. simpl. by apply IH.
Qed.

Lemma interleave_lookup_expression (strings : list string)
    (expressions : list Expression) (i : nat) (e : Expression) :
  length strings = S (length expressions) ->
  expressions !! i = Some e ->
  interleave strings expressions !! (2 * i + 1) = Some e.
Proof.
  revert expressions i.
  induction strings as [|s0 strings IH]; intros [|e0 expressions] i Hlen Hi;
    simplify_eq/=.
  destruct i as [|i]; simplify_eq/=; [done|].
  replace (i + S (i + 0) + 1) with (S (2 * i + 1)) by lia. simpl. by apply IH.
Qed.

(** Outside the degenerate pattern, a well-shaped input is interleaved. *)
Lemma interpolationArgsOf_general (strings : list string) (expressions : list Expression) :
  length strings = S (length expressions) ->
  ~ degenerate strings expressions ->
  interpolationArgsOf strings expressions = interleave strings expressions.
Proof.
  intros Hlen Hnd. unfold interpolationArgsOf.
  destruct expressions as [|e [|e' expressions]];
    try by apply interleavedArgs_interleave.
  destruct strings as [|s0 [|s1 [|? ?]]]; simplify_eq/=.
  repeat case_bool_decide; simplify_eq/=; try by apply interleavedArgs_interleave.
  destruct Hnd. by split.
Qed.

Lemma interpolationArgsOf_degenerate (e : Expression) :
  interpolationArgsOf [""; ""] [e] = [e].
Proof. reflexivity. Qed.

Lemma text_mapping_odd (k : nat) :
  mapping TEXT_INTERPOLATE_CONFIG (2 * k + 1) = Ok k.
Proof.
  unfold TEXT_INTERPOLATE_CONFIG, mapping.
  replace (2 * k + 1) with (1 + k * 2) by lia.
  rewrite Nat.Div0.mod_add. change (1 mod 2)%nat with 1%nat.
  change (1 =? 0)%nat with false. cbv iota. f_equal.
  replace (1 + k * 2 - 1) with (k * 2) by lia. by rewrite Nat.div_mul.
Qed.

Lemma text_mapping_even (n : nat) :
  Nat.Even n ->
  mapping TEXT_INTERPOLATE_CONFIG n = Throw "Expected odd number of arguments".
Proof.
  intros [k ->]. unfold TEXT_INTERPOLATE_CONFIG, mapping.
  rewrite Nat.mul_comm, Nat.Div0.mod_mul. reflexivity.
Qed.

(** The entry validation of [textInterpolate] accepts exactly the inputs
    with one more string than expressions. *)
Lemma textInterpolate_valid (strings : list string) (expressions : list Expression) :
  length strings = S (length expressions) ->
  textInterpolate strings expressions
    = callVariadicInstruction TEXT_INTERPOLATE_CONFIG []
        (interpolationArgsOf strings expressions).
Proof.
  intros Hlen. unfold textInterpolate.
  rewrite bool_decide_eq_false_2 by lia.
  rewrite bool_decide_eq_false_2 by lia. done.
Qed.

Lemma textInterpolate_invalid (strings : list string) (expressions : list Expression) :
  length strings <> S (length expressions) ->
  textInterpolate strings expressions
    = Throw "AssertionError: expected specific shape of args for strings/expressions in interpolation".
Proof.
  intros Hlen. unfold textInterpolate.
  destruct (decide (length strings < 1)) as [Hlt|Hge].
  - by rewrite bool_decide_eq_true_2.
  - rewrite bool_decide_eq_false_2 by done.
    rewrite bool_decide_eq_true_2 by lia. done.
Qed.

Lemma callVariadicInstructionExpr_mapped (config : VariadicInstructionConfig)
    (baseArgs interpolationArgs : list Expression) (n : nat) :
  mapping config (length interpolationArgs) = Ok n ->
  callVariadicInstructionExpr config baseArgs interpolationArgs =
    match constant config !! n with
    | Some instruction =>
        Ok (callFn (importExpr instruction) (baseArgs ++ interpolationArgs))
    | None =>
        match variable config with
        | Some instruction =>
            Ok (callFn (importExpr instruction) (baseArgs ++ [literalArr interpolationArgs]))
        | None => Throw "AssertionError: unable to call variadic function"
        end
    end.
Proof. intros Hn. unfold callVariadicInstructionExpr. by rewrite Hn. Qed.

(** A well-shaped, non-degenerate input reaches the collapser with logical
    count [K], the number of expressions. *)
Lemma textInterpolate_general (strings : list string) (expressions : list Expression) :
  length strings = S (length expressions) ->
  ~ degenerate strings expressions ->
  textInterpolate strings expressions =
    match constant TEXT_INTERPOLATE_CONFIG !! length expressions with
    | Some instruction => Ok (call instruction (interleave strings expressions))
    | None =>
        Ok (call Identifiers.textInterpolateV [literalArr (interleave strings expressions)])
    end.
Proof.
  intros Hlen Hnd.
  rewrite textInterpolate_valid, interpolationArgsOf_general by done.
  unfold callVariadicInstruction.
  rewrite (callVariadicInstructionExpr_mapped _ _ _ (length expressions))
    by (rewrite length_interleave by done; apply text_mapping_odd).
  by destruct (constant TEXT_INTERPOLATE_CONFIG !! length expressions).
Qed.

(** C1. [element], [elementStart], [elementContainer] and
    [elementContainerStart] build their arguments positionally: the slot;
    the tag for the two element forms and never for the container forms;
    then the pair constant index (a null literal when absent), local
    reference index when the latter is given; otherwise the constant
    index alone when it is given. All combinations are listed. *)
Theorem element_args_table (slot : Z) (tag : string) (c l : Z) :
  element slot tag None None
    = call Identifiers.element [literalNumber slot; literalString tag]
  /\ element slot tag (Some c) None
    = call Identifiers.element [literalNumber slot; literalString tag; literalNumber c]
  /\ element slot tag None (Some l)
    = call Identifiers.element
        [literalNumber slot; literalString tag; LiteralExpr LNull; literalNumber l]
  /\ element slot tag (Some c) (Some l)
    = call Identifiers.element
        [literalNumber slot; literalString tag; literalNumber c; literalNumber l]
  /\ elementStart slot tag None None
    = call Identifiers.elementStart [literalNumber slot; literalString tag]
  /\ elementStart slot tag (Some c) None
    = call Identifiers.elementStart
        [literalNumber slot; literalString tag; literalNumber c]
  /\ elementStart slot tag None (Some l)
    = call Identifiers.elementStart
        [literalNumber slot; literalString tag; LiteralExpr LNull; literalNumber l]
  /\ elementStart slot tag (Some c) (Some l)
    = call Identifiers.elementStart
        [literalNumber slot; literalString tag; literalNumber c; literalNumber l]
  /\ elementContainer slot None None
    = call Identifiers.elementContainer [literalNumber slot]
  /\ elementContainer slot (Some c) None
    = call Identifiers.elementContainer [literalNumber slot; literalNumber c]
  /\ elementContainer slot None (Some l)
    = call Identifiers.elementContainer
        [literalNumber slot; LiteralExpr LNull; literalNumber l]
  /\ elementContainer slot (Some c) (Some l)
    = call Identifiers.elementContainer
        [literalNumber slot; literalNumber c; literalNumber l]
  /\ elementContainerStart slot None None
    = call Identifiers.elementContainerStart [literalNumber slot]
  /\ elementContainerStart slot (Some c) None
    = call Identifiers.elementContainerStart [literalNumber slot; literalNumber c]
  /\ elementContainerStart slot None (Some l)
    = call Identifiers.elementContainerStart
        [literalNumber slot; LiteralExpr LNull; literalNumber l]
  /\ elementContainerStart slot (Some c) (Some l)
    = call Identifiers.elementContainerStart
        [literalNumber slot; literalNumber c; literalNumber l].
Proof. repeat split. Qed.

(** C2. Once the mapping gives the logical count [n]: when [n] indexes the
    constant forms, the call targets the constant form at index [n] with
    the base arguments followed by all variadic arguments; otherwise,
    when a variable form is configured, the call targets it with the base
    arguments followed by one packed array of the variadic arguments.
    For [textInterpolate] outside the degenerate pattern, up to eight
    expressions select the constant form at that index, and more select
    the variable form. *)
Theorem callVariadic_selects_form :
  (forall (config : VariadicInstructionConfig)
          (baseArgs interpolationArgs : list Expression) (n : nat),
      mapping config (length interpolationArgs) = Ok n ->
      (n < length (constant config) ->
         exists instruction,
           constant config !! n = Some instruction
           /\ callVariadicInstructionExpr config baseArgs interpolationArgs
              = Ok (callFn (importExpr instruction) (baseArgs ++ interpolationArgs)))
      /\ (length (constant config) <= n ->
          forall instruction, variable config = Some instruction ->
            callVariadicInstructionExpr config baseArgs interpolationArgs
            = Ok (callFn (importExpr instruction)
                    (baseArgs ++ [literalArr interpolationArgs]))))
  /\ (forall (strings : list string) (expressions : list Expression),
        length strings = S (length expressions) ->
        ~ degenerate strings expressions ->
        (length expressions <= 8 ->
           exists instruction,
             constant TEXT_INTERPOLATE_CONFIG !! length expressions = Some instruction
             /\ textInterpolate strings expressions
                = Ok (call instruction (interleave strings expressions)))
        /\ (8 < length expressions ->
            textInterpolate strings expressions
            = Ok (call Identifiers.textInterpolateV
                    [literalArr (interleave strings expressions)]))).
Proof.
  split.
  - intros config baseArgs interpolationArgs n Hn.
    rewrite (callVariadicInstructionExpr_mapped _ _ _ n Hn). split.
    + intros Hlt. destruct (lookup_lt_is_Some_2 _ _ Hlt) as [instruction Hi].
      exists instruction. by rewrite Hi.
    + intros Hge instruction Hv.
      by rewrite (lookup_ge_None_2 _ _ Hge), Hv.
  - intros strings expressions Hlen Hnd.
    rewrite textInterpolate_general by done. split.
    + intros Hle.
      assert (length expressions < length (constant TEXT_INTERPOLATE_CONFIG)) as Hlt
        by (simpl; lia).
      destruct (lookup_lt_is_Some_2 _ _ Hlt) as [instruction Hi].
      exists instruction. by rewrite Hi.
    + intros Hgt. by rewrite lookup_ge_None_2 by (simpl; lia).
Qed.

Lemma callVariadic_selects_form_witness :
  callVariadicInstructionExpr TEXT_INTERPOLATE_CONFIG []
      [literalString "a"; ReadVarExpr "x"; literalString "b"]
    = Ok (callFn (importExpr Identifiers.textInterpolate1)
            [literalString "a"; ReadVarExpr "x"; literalString "b"])
  /\ callVariadicInstructionExpr
      {| constant := []; variable := Some Identifiers.property;
         mapping := fun n => Ok n |} [literalNumber 0] [ReadVarExpr "x"]
    = Ok (callFn (importExpr Identifiers.property)
            [literalNumber 0; literalArr [ReadVarExpr "x"]])
  /\ textInterpolate ["a"; "b"] [ReadVarExpr "x"]
    = Ok (call Identifiers.textInterpolate1
            [literalString "a"; ReadVarExpr "x"; literalString "b"])
  /\ textInterpolate (replicate 10 "s") (replicate 9 (ReadVarExpr "x"))
    = Ok (call Identifiers.textInterpolateV
            [literalArr (interleave (replicate 10 "s") (replicate 9 (ReadVarExpr "x")))]).
Proof.
  destruct callVariadic_selects_form as [Hcollapse Htext].
  split; [|split; [|split]].
  - destruct (Hcollapse TEXT_INTERPOLATE_CONFIG []
                [literalString "a"; ReadVarExpr "x"; literalString "b"] 1%nat eq_refl)
      as [Hconst _].
    destruct Hconst as (instruction & Hi & Hcall); [simpl; lia|].
    simpl in Hi. injection Hi as <-. exact Hcall.
  - destruct (Hcollapse {| constant := []; variable := Some Identifiers.property;
                           mapping := fun n => Ok n |}
                [literalNumber 0] [ReadVarExpr "x"] 1%nat eq_refl) as [_ Hvar].
    apply Hvar; [simpl; lia|reflexivity].
  - destruct (Htext ["a"; "b"] [ReadVarExpr "x"] eq_refl) as [Hconst _].
    { intros [_ Hs]. discriminate Hs. }
    destruct Hconst as (instruction & Hi & Hcall); [simpl; lia|].
    simpl in Hi. injection Hi as <-. exact Hcall.
  - destruct (Htext (replicate 10 "s") (replicate 9 (ReadVarExpr "x")) eq_refl)
      as [_ Hvar].
    { intros [Hl _]. discriminate Hl. }
    apply Hvar. simpl. lia.
Defined.

(** C3, as amended. One expression between two empty strings gives a
    call of one argument, the bare expression. Every other well-shaped
    input with [K] expressions and [K+1] strings gives the [2K+1]
    interpolation arguments strings[0], expressions[0], ..., strings[K]:
    they are the arguments of the emitted call when [K <= 8], and the
    entries of its single packed-array argument when [K > 8]. *)
Theorem textInterpolate_interleaves (strings : list string)
    (expressions : list Expression) :
  (forall e, strings = [""; ""] -> expressions = [e] ->
     textInterpolate strings expressions = Ok (call Identifiers.textInterpolate [e]))
  /\ (length strings = S (length expressions) ->
      ~ degenerate strings expressions ->
      let interpolationArgs := interleave strings expressions in
      length interpolationArgs = 2 * length expressions + 1
      /\ (forall i s, strings !! i = Some s ->
            interpolationArgs !! (2 * i) = Some (literalString s))
      /\ (forall i e, expressions !! i = Some e ->
            interpolationArgs !! (2 * i + 1) = Some e)
      /\ (length expressions <= 8 ->
            exists op, textInterpolate strings expressions = Ok op
                       /\ opArgs op = interpolationArgs)
      /\ (8 < length expressions ->
            exists op, textInterpolate strings expressions = Ok op
                       /\ opArgs op = [literalArr interpolationArgs])).
Proof.
  split.
  - intros e -> ->. reflexivity.
  - intros Hlen Hnd interpolationArgs. subst interpolationArgs.
    split; [by apply length_interleave|].
    split; [intros i s; by apply interleave_lookup_string|].
    split; [intros i e; by apply interleave_lookup_expression|].
    rewrite textInterpolate_general by done. split.
    + intros Hle.
      assert (length expressions < length (constant TEXT_INTERPOLATE_CONFIG)) as Hlt
        by (simpl; lia).
      destruct (lookup_lt_is_Some_2 _ _ Hlt) as [instruction Hi].
      rewrite Hi. by eexists.
    + intros Hgt. rewrite lookup_ge_None_2 by (simpl; lia). by eexists.
Qed.

Lemma textInterpolate_interleaves_witness :
  textInterpolate [""; ""] [ReadVarExpr "x"]
    = Ok (call Identifiers.textInterpolate [ReadVarExpr "x"])
  /\ (exists op, textInterpolate ["a"; ""] [ReadVarExpr "x"] = Ok op
                /\ opArgs op = [literalString "a"; ReadVarExpr "x"; literalString ""])
  /\ (exists op,
        textInterpolate (replicate 10 "s") (replicate 9 (ReadVarExpr "x")) = Ok op
        /\ opArgs op
           = [literalArr (interleave (replicate 10 "s") (replicate 9 (ReadVarExpr "x")))]).
Proof.
  split; [|split].
  - exact (proj1 (textInterpolate_interleaves [""; ""] [ReadVarExpr "x"])
             (ReadVarExpr "x") eq_refl eq_refl).
  - destruct (proj2 (textInterpolate_interleaves ["a"; ""] [ReadVarExpr "x"]) eq_refl)
      as (_ & _ & _ & Hconst & _).
    { intros [_ Hs]. discriminate Hs. }
    apply Hconst. simpl. lia.
  - destruct (proj2 (textInterpolate_interleaves
                       (replicate 10 "s") (replicate 9 (ReadVarExpr "x"))) eq_refl)
      as (_ & _ & _ & _ & Hvar).
    { intros [Hl _]. discriminate Hl. }
    apply Hvar. simpl. lia.
Defined.

(** C3 as first stated fails: with nine expressions between ten strings the
    emitted call has one argument, not 2 * 9 + 1. *)
Lemma textInterpolate_nine_expressions_one_arg :
  exists op,
    textInterpolate (replicate 10 "s") (replicate 9 (ReadVarExpr "x")) = Ok op
    /\ length (opArgs op) = 1
    /\ length (opArgs op) <> 2 * length (replicate 9 (ReadVarExpr "x")) + 1.
Proof. eexists. split; [reflexivity|]. split; [reflexivity|]. simpl. lia. Qed.

(** C4. When the strings and expressions taken together are even in
    number, and more generally whenever there are no strings or not
    exactly one more string than expressions, [textInterpolate] throws
    its shape error and returns no operation. *)
Theorem textInterpolate_rejects_bad_shape (strings : list string)
    (expressions : list Expression) :
  (Nat.Even (length strings + length expressions) ->
     textInterpolate strings expressions
       = Throw "AssertionError: expected specific shape of args for strings/expressions in interpolation"
     /\ ~ returns (textInterpolate strings expressions))
  /\ (length strings = 0 \/ length strings <> length expressions + 1 ->
       textInterpolate strings expressions
         = Throw "AssertionError: expected specific shape of args for strings/expressions in interpolation"
       /\ ~ returns (textInterpolate strings expressions)).
Proof.
  assert (length strings <> S (length expressions) ->
          textInterpolate strings expressions
            = Throw "AssertionError: expected specific shape of args for strings/expressions in interpolation"
          /\ ~ returns (textInterpolate strings expressions)) as Hbad.
  { intros Hne. rewrite textInterpolate_invalid by done.
    split; [done|]. intros [op Hop]. discriminate Hop. }
  split.
  - intros [k Hk]. apply Hbad. lia.
  - intros Hshape. apply Hbad. lia.
Qed.

Lemma textInterpolate_rejects_bad_shape_witness :
  textInterpolate ["a"; "b"] [ReadVarExpr "x"; ReadVarExpr "y"]
    = Throw "AssertionError: expected specific shape of args for strings/expressions in interpolation"
  /\ textInterpolate [] []
    = Throw "AssertionError: expected specific shape of args for strings/expressions in interpolation".
Proof.
  split.
  - apply (proj1 (textInterpolate_rejects_bad_shape
                    ["a"; "b"] [ReadVarExpr "x"; ReadVarExpr "y"])).
    exists 2. simpl. lia.
  - apply (proj2 (textInterpolate_rejects_bad_shape [] [])).
    left. reflexivity.
Defined.

(** C5. [nextContext] passes no argument when [steps] is 1, and the
    literal [steps] alone otherwise. *)
Theorem nextContext_args (steps : Z) :
  (steps = 1%Z ->
     nextContext steps = callFn (importExpr Identifiers.nextContext) [])
  /\ (steps <> 1%Z ->
      nextContext steps
        = callFn (importExpr Identifiers.nextContext) [literalNumber steps]).
Proof.
  unfold nextContext. split; intros Hsteps.
  - by rewrite bool_decide_eq_true_2.
  - by rewrite bool_decide_eq_false_2.
Qed.

Lemma nextContext_args_witness :
  callArgs (nextContext 1) = [] /\ callArgs (nextContext 2) = [literalNumber 2].
Proof.
  split.
  - rewrite (proj1 (nextContext_args 1)); [reflexivity|lia].
  - rewrite (proj2 (nextContext_args 2)); [reflexivity|lia].
Defined.

(** C6. [text] passes the slot, followed by the initial value exactly when
    that string is not empty. *)
Theorem text_args (slot : Z) (initialValue : string) :
  (initialValue = "" -> text slot initialValue = call Identifiers.text [literalNumber slot])
  /\ (initialValue <> "" ->
      text slot initialValue
        = call Identifiers.text [literalNumber slot; literalString initialValue]).
Proof.
  unfold text. split; intros Hvalue.
  - by rewrite bool_decide_eq_false_2 by (intros Hne; by apply Hne).
  - by rewrite bool_decide_eq_true_2.
Qed.

Lemma text_args_witness :
  opArgs (text 3 "") = [literalNumber 3]
  /\ opArgs (text 3 "hi") = [literalNumber 3; literalString "hi"].
Proof.
  split.
  - rewrite (proj1 (text_args 3 "")); reflexivity.
  - rewrite (proj2 (text_args 3 "hi")); [reflexivity|discriminate].
Defined.

(** C7. When the logical count reaches past the constant forms and no
    variable form is configured, the collapser throws and emits no call. *)
Theorem callVariadic_no_applicable_form (config : VariadicInstructionConfig)
    (baseArgs interpolationArgs : list Expression) (n : nat) :
  mapping config (length interpolationArgs) = Ok n ->
  length (constant config) <= n ->
  variable config = None ->
  callVariadicInstructionExpr config baseArgs interpolationArgs
    = Throw "AssertionError: unable to call variadic function"
  /\ callVariadicInstruction config baseArgs interpolationArgs
    = Throw "AssertionError: unable to call variadic function"
  /\ ~ returns (callVariadicInstructionExpr config baseArgs interpolationArgs).
Proof.
  intros Hn Hge Hvar.
  assert (callVariadicInstructionExpr config baseArgs interpolationArgs
          = Throw "AssertionError: unable to call variadic function") as Hthrow.
  { rewrite (callVariadicInstructionExpr_mapped _ _ _ n Hn).
    by rewrite (lookup_ge_None_2 _ _ Hge), Hvar. }
  split; [done|]. split.
  - unfold callVariadicInstruction. by rewrite Hthrow.
  - rewrite Hthrow. intros [e He]. discriminate He.
Qed.

Lemma callVariadic_no_applicable_form_witness :
  callVariadicInstructionExpr
    {| constant := [Identifiers.textInterpolate]; variable := None;
       mapping := TEXT_INTERPOLATE_CONFIG.(mapping) |}
    [] [literalString "a"; ReadVarExpr "x"; literalString "b"]
  = Throw "AssertionError: unable to call variadic function".
Proof.
  apply (callVariadic_no_applicable_form
           {| constant := [Identifiers.textInterpolate]; variable := None;
              mapping := TEXT_INTERPOLATE_CONFIG.(mapping) |}
           [] [literalString "a"; ReadVarExpr "x"; literalString "b"] 1%nat).
  - reflexivity.
  - simpl. lia.
  - reflexivity.
Defined.

(** C9. [advance] always passes exactly one argument, the literal [delta],
    also when [delta] is 1, where [nextContext] passes none. *)
Theorem advance_args (delta : Z) :
  advance delta = call Identifiers.advance [literalNumber delta]
  /\ opArgs (advance delta) = [literalNumber delta]
  /\ opArgs (advance 1) = [literalNumber 1]
  /\ callArgs (nextContext 1) = [].
Proof. repeat split. Qed.

(** C10. For every input that passes the entry validation of
    [textInterpolate], the interpolation arguments handed to the
    collapser are odd in number (one in the degenerate pattern, [2K+1]
    otherwise), the mapping of the text configuration returns on that
    length, and [textInterpolate] does not throw the odd-count error. *)
Theorem text_mapping_check_unreachable (strings : list string)
    (expressions : list Expression) :
  1 <= length strings ->
  Z.of_nat (length expressions) = (Z.of_nat (length strings) - 1)%Z ->
  (length (interpolationArgsOf strings expressions) = 1
   \/ length (interpolationArgsOf strings expressions) = 2 * length expressions + 1)
  /\ Nat.Odd (length (interpolationArgsOf strings expressions))
  /\ returns (mapping TEXT_INTERPOLATE_CONFIG
                (length (interpolationArgsOf strings expressions)))
  /\ textInterpolate strings expressions <> Throw "Expected odd number of arguments"
  /\ returns (textInterpolate strings expressions).
Proof.
  intros Hge Hshape.
  assert (length strings = S (length expressions)) as Hlen by lia.
  assert (exists k, length (interpolationArgsOf strings expressions) = 2 * k + 1
                    /\ (k = 0 \/ k = length expressions)) as (k & Hk & Hcases).
  { destruct (decide (degenerate strings expressions)) as [[Hone ->]|Hnd].
    - destruct expressions as [|e [|? ?]]; simplify_eq/=. exists 0. by split; [|left].
    - exists (length expressions).
      rewrite interpolationArgsOf_general, length_interleave by done. by split; [|right]. }
  split; [destruct Hcases as [->| ->]; [by left|by right]|].
  split; [by exists k|].
  split; [rewrite Hk, text_mapping_odd; by eexists|].
  rewrite textInterpolate_valid by done. unfold callVariadicInstruction.
  rewrite (callVariadicInstructionExpr_mapped _ _ _ k)
    by (rewrite Hk; apply text_mapping_odd).
  destruct (constant TEXT_INTERPOLATE_CONFIG !! k); simpl; split; try done; by eexists.
Qed.

Lemma text_mapping_check_unreachable_witness :
  Nat.Odd (length (interpolationArgsOf ["a"; "b"; "c"] [ReadVarExpr "x"; ReadVarExpr "y"]))
  /\ Nat.Odd (length (interpolationArgsOf [""; ""] [ReadVarExpr "x"])).
Proof.
  split.
  - apply (text_mapping_check_unreachable
             ["a"; "b"; "c"] [ReadVarExpr "x"; ReadVarExpr "y"]); simpl; lia.
  - apply (text_mapping_check_unreachable [""; ""] [ReadVarExpr "x"]); simpl; lia.
Defined.

End InstructionProperties.

(** * Properties of module scope resolution *)

Section ScopeProperties.

Import Scope.

Variable graph : gmap ModuleId ModuleNode.

(** Entering a registered module that is not in progress leaves strictly
    fewer modules to enter. *)
Lemma unvisited_decreases (visited : gset ModuleId) (m : ModuleId) :
  is_Some (graph !! m) -> m ∉ visited ->
  size (dom graph ∖ ({[m]} ∪ visited)) < size (dom graph ∖ visited).
Proof.
  intros Hm Hnew. apply subset_size.
  apply elem_of_dom in Hm. split.
  - intros x. rewrite !elem_of_difference, elem_of_union. tauto.
  - intros Hsub. specialize (Hsub m).
    rewrite !elem_of_difference, elem_of_union, elem_of_singleton in Hsub. tauto.
Qed.

(** The traversal ends: fuel beyond the number of registered modules not
    yet in progress is never used up. *)
Lemma resolveFrom_terminates (fuel : nat) :
  forall (visited : gset ModuleId) (m : ModuleId),
    m ∉ visited ->
    size (dom graph ∖ visited) < fuel ->
    is_Some (resolveFrom fuel graph visited m).
Proof.
  induction fuel as [|fuel IH]; intros visited m Hnew Hfuel; [lia|].
  simpl. destruct (graph !! m) as [node|] eqn:Hm; [|by eexists].
  assert (is_Some (mapM (importedSymbols graph ({[m]} ∪ visited)
                           (resolveFrom fuel graph)) (imports node))) as [cs Hcs].
  { apply mapM_is_Some, Forall_forall. intros i _.
    unfold compose, importedSymbols. destruct (graph !! i) as [imported|]; [|by eexists].
    destruct (decide (i ∈ {[m]} ∪ visited)) as [Hin|Hout]; [by eexists|].
    destruct (IH ({[m]} ∪ visited) i Hout) as [known Hknown].
    - pose proof (unvisited_decreases visited m (mk_is_Some _ _ Hm) Hnew). lia.
    - rewrite Hknown. by eexists. }
  rewrite Hcs. by eexists.
Qed.

(** More fuel does not change a result. *)
Lemma resolveFrom_fuel_mono (fuel : nat) :
  forall (fuel' : nat) (visited : gset ModuleId) (m : ModuleId) (scope : list Symbol),
    resolveFrom fuel graph visited m = Some scope ->
    fuel <= fuel' ->
    resolveFrom fuel' graph visited m = Some scope.
Proof.
  induction fuel as [|fuel IH]; intros fuel' visited m scope Hres Hle; [done|].
  destruct fuel' as [|fuel']; [lia|]. simpl in *.
  destruct (graph !! m) as [node|]; [|done].
  destruct (mapM (importedSymbols graph ({[m]} ∪ visited) (resolveFrom fuel graph))
              (imports node)) as [cs|] eqn:Hcs; [|done].
  simpl in Hres. rewrite mapM_Some in Hcs.
  assert (mapM (importedSymbols graph ({[m]} ∪ visited) (resolveFrom fuel' graph))
            (imports node) = Some cs) as ->; [|done].
  apply mapM_Some. eapply Forall2_impl; [exact Hcs|].
  intros i c. unfold importedSymbols.
  destruct (graph !! i) as [imported|]; [|done].
  destruct (decide (i ∈ {[m]} ∪ visited)); [done|].
  destruct (resolveFrom fuel graph ({[m]} ∪ visited) i) as [known|] eqn:Hknown; [|done].
  by rewrite (IH fuel' _ _ _ Hknown) by lia.
Qed.

Lemma elem_of_concat (x : Symbol) (ls : list (list Symbol)) :
  x ∈ concat ls <-> exists l, x ∈ l /\ l ∈ ls.
Proof.
  induction ls as [|l ls IH]; simpl.
  - split; [intros Hx; by apply elem_of_nil in Hx|].
    intros (l & _ & Hl). by apply elem_of_nil in Hl.
  - rewrite elem_of_app, IH. split.
    + intros [Hx|(l' & Hx & Hl')].
      * exists l. split; [done|]. apply list_elem_of_here.
      * exists l'. split; [done|]. by apply list_elem_of_further.
    + intros (l' & Hx & Hl'). apply elem_of_cons in Hl' as [->|Hl']; [by left|].
      right. by exists l'.
Qed.

(** Only symbols of its export list cross the boundary of a module. *)
Lemma exportedScope_exported (inProgress : gset ModuleId) (i : ModuleId)
    (exported : list Symbol) (x : Symbol) :
  exportedScope graph inProgress i = Some exported ->
  x ∈ exported ->
  exists imported, graph !! i = Some imported /\ x ∈ exports imported.
Proof.
  unfold exportedScope, importedSymbols. intros Hexp Hx.
  destruct (graph !! i) as [imported|]; [|simplify_eq; by apply elem_of_nil in Hx].
  exists imported. split; [done|].
  destruct (if decide (i ∈ inProgress) then _ else _) as [known|]; simplify_eq/=.
  unfold exportedSymbols in Hx. by apply list_elem_of_filter in Hx as [? _].
Qed.

(** The imports of a module that is being resolved from the start
    contribute their exported scopes. *)
Lemma importedSymbols_exportedScope (A : ModuleId) (i : ModuleId) :
  is_Some (graph !! A) ->
  exists contribution,
    importedSymbols graph ({[A]} ∪ ∅) (resolveFrom (size graph) graph) i
      = Some contribution
    /\ exportedScope graph {[A]} i = Some contribution.
Proof.
  intros HA. rewrite (right_id_L ∅ (∪)). unfold exportedScope, importedSymbols.
  destruct (graph !! i) as [imported|]; [|by eexists].
  destruct (decide (i ∈ ({[A]} : gset ModuleId))) as [Hin|Hout]; [by eexists|].
  destruct (resolveFrom_terminates (size graph) {[A]} i Hout) as [known Hknown].
  - pose proof (unvisited_decreases ∅ A HA (not_elem_of_empty A)) as Hlt.
    rewrite (right_id_L ∅ (∪)), difference_empty_L, size_dom in Hlt. done.
  - rewrite Hknown, (resolveFrom_fuel_mono _ (S (size graph)) _ _ _ Hknown) by lia.
    by eexists.
Qed.

(** Whatever cycles the import graph has, resolving a registered module
    ends with a duplicate-free scope: its own declared symbols together
    with the exported scopes of its imports. *)
Lemma resolve_scope (A : ModuleId) (nodeA : ModuleNode) :
  graph !! A = Some nodeA ->
  exists scope,
    resolve graph A = Some scope
    /\ NoDup scope
    /\ (forall x, x ∈ scope <->
           x ∈ declared nodeA
           \/ exists B exported,
                B ∈ imports nodeA
                /\ exportedScope graph {[A]} B = Some exported
                /\ x ∈ exported)
    /\ (forall B exported x,
           exportedScope graph {[A]} B = Some exported -> x ∈ exported ->
           exists nodeB, graph !! B = Some nodeB /\ x ∈ exports nodeB).
Proof.
  intros HA. unfold resolve. simpl. rewrite HA.
  assert (exists cs,
            mapM (importedSymbols graph ({[A]} ∪ ∅) (resolveFrom (size graph) graph))
              (imports nodeA) = Some cs
            /\ Forall2 (fun i c => exportedScope graph {[A]} i = Some c)
                 (imports nodeA) cs) as (cs & Hcs & Hexp).
  { induction (imports nodeA) as [|i rest IH].
    - exists []. by split; [|constructor].
    - destruct IH as (cs & Hcs & Hexp).
      destruct (importedSymbols_exportedScope A i (mk_is_Some _ _ HA))
        as (c & Hc & Hci).
      exists (c :: cs). rewrite mapM_Some in Hcs.
      split; [apply mapM_Some|]; by constructor. }
  rewrite Hcs. simpl. eexists. split; [done|].
  split; [apply NoDup_remove_dups|].
  split; [|intros B exported x; apply exportedScope_exported].
  intros x. rewrite elem_of_remove_dups, elem_of_app, elem_of_concat.
  split; (intros [Hown|Himp]; [by left|right]).
  - destruct Himp as (c & Hx & Hc).
    apply list_elem_of_lookup in Hc as [k Hk].
    destruct (Forall2_lookup_r _ _ _ _ _ Hexp Hk) as (B & HB & HBc).
    exists B, c. split; [|done]. apply list_elem_of_lookup. by exists k.
  - destruct Himp as (B & exported & HB & HBexp & Hx).
    apply list_elem_of_lookup in HB as [k Hk].
    destruct (Forall2_lookup_l _ _ _ _ _ Hexp Hk) as (c & Hc & HBc).
    exists exported. split; [done|].
    rewrite HBexp in HBc. injection HBc as ->.
    apply list_elem_of_lookup. by exists k.
Qed.

End ScopeProperties.

Section CycleAB.

Import Scope.

(** In the cycle A -> B -> A, resolving A enters B, which finds A in
    progress and takes the exported part of what A declares. *)
Lemma resolve_cycleAB (nodeA nodeB : ModuleNode) :
  imports nodeA = ["B"] -> imports nodeB = ["A"] ->
  resolve (cycleAB nodeA nodeB) "A"
    = Some (remove_dups (declared nodeA ++
              exportedSymbols nodeB
                (remove_dups (declared nodeB ++ exportedSymbols nodeA (declared nodeA))))).
Proof.
  intros HA HB. unfold resolve.
  change (size (cycleAB nodeA nodeB)) with 2.
  cbn [resolveFrom].
  change (cycleAB nodeA nodeB !! "A") with (Some nodeA).
  cbn iota beta. rewrite HA. cbn [mapM]. unfold importedSymbols at 1.
  change (cycleAB nodeA nodeB !! "B") with (Some nodeB). cbn iota beta.
  rewrite decide_False by (vm_compute; discriminate).
  rewrite HB. cbn [mapM]. unfold importedSymbols.
  change (cycleAB nodeA nodeB !! "A") with (Some nodeA). cbn iota beta.
  rewrite decide_True by (vm_compute; reflexivity).
  simpl. by rewrite !app_nil_r.
Qed.

(** The same cycle resolved from B. *)
Lemma resolve_cycleAB_from_B (nodeA nodeB : ModuleNode) :
  imports nodeA = ["B"] -> imports nodeB = ["A"] ->
  resolve (cycleAB nodeA nodeB) "B"
    = Some (remove_dups (declared nodeB ++
              exportedSymbols nodeA
                (remove_dups (declared nodeA ++ exportedSymbols nodeB (declared nodeB))))).
Proof.
  intros HA HB. unfold resolve.
  change (size (cycleAB nodeA nodeB)) with 2.
  cbn [resolveFrom].
  change (cycleAB nodeA nodeB !! "B") with (Some nodeB).
  cbn iota beta. rewrite HB. cbn [mapM]. unfold importedSymbols at 1.
  change (cycleAB nodeA nodeB !! "A") with (Some nodeA). cbn iota beta.
  rewrite decide_False by (vm_compute; discriminate).
  rewrite HA. cbn [mapM]. unfold importedSymbols.
  change (cycleAB nodeA nodeB !! "B") with (Some nodeB). cbn iota beta.
  rewrite decide_True by (vm_compute; reflexivity).
  simpl. by rewrite !app_nil_r.
Qed.

Example resolve_moduleA :
  resolve (cycleAB moduleA moduleB) "A" = Some ["a2"; "b1"; "a1"].
Proof. reflexivity. Qed.

Example resolve_moduleB :
  resolve (cycleAB moduleA moduleB) "B" = Some ["b2"; "b1"; "a1"].
Proof. reflexivity. Qed.

(** C8. Whatever cycles the import graph has, resolving a registered
    module [A] ends with a scope; the scope has no duplicate entry; and it
    holds exactly the symbols [A] declares together with the exported
    symbols of each module [A] imports, every one of which is in the
    export list of that module. In the cycle A -> B -> A both modules
    resolve, and the scope of A is what A declares together with the
    symbols of the scope of B that B exports. *)
Theorem resolve_cyclic_scope :
  (forall (graph : gmap ModuleId ModuleNode) (A : ModuleId) (nodeA : ModuleNode),
      graph !! A = Some nodeA ->
      exists scope,
        resolve graph A = Some scope
        /\ NoDup scope
        /\ (forall x, x ∈ scope <->
               x ∈ declared nodeA
               \/ exists B exported,
                    B ∈ imports nodeA
                    /\ exportedScope graph {[A]} B = Some exported
                    /\ x ∈ exported)
        /\ (forall B exported x,
               exportedScope graph {[A]} B = Some exported -> x ∈ exported ->
               exists nodeB, graph !! B = Some nodeB /\ x ∈ exports nodeB))
  /\ (forall nodeA nodeB : ModuleNode,
        imports nodeA = ["B"] -> imports nodeB = ["A"] ->
        exists scopeA scopeB,
          resolve (cycleAB nodeA nodeB) "A" = Some scopeA
          /\ resolve (cycleAB nodeA nodeB) "B" = Some scopeB
          /\ NoDup scopeA
          /\ (forall x, x ∈ scopeA <->
                 x ∈ declared nodeA \/ (x ∈ exports nodeB /\ x ∈ scopeB))).
Proof.
  split; [exact resolve_scope|].
  intros nodeA nodeB HA HB.
  rewrite (resolve_cycleAB _ _ HA HB), (resolve_cycleAB_from_B _ _ HA HB).
  do 2 eexists. split; [done|]. split; [done|].
  split; [apply NoDup_remove_dups|].
  intros x. unfold exportedSymbols.
  rewrite !elem_of_remove_dups, !elem_of_app, !list_elem_of_filter,
    !elem_of_remove_dups, !elem_of_app, !list_elem_of_filter. tauto.
Qed.

Lemma resolve_cyclic_scope_witness :
  (cycleAB moduleA moduleB !! "A" = Some moduleA
   /\ exists scope,
        resolve (cycleAB moduleA moduleB) "A" = Some scope
        /\ NoDup scope
        /\ (forall x, x ∈ scope <->
               x ∈ declared moduleA
               \/ exists B exported,
                    B ∈ imports moduleA
                    /\ exportedScope (cycleAB moduleA moduleB) {["A"]} B = Some exported
                    /\ x ∈ exported)
        /\ (forall B exported x,
               exportedScope (cycleAB moduleA moduleB) {["A"]} B = Some exported ->
               x ∈ exported ->
               exists nodeB, cycleAB moduleA moduleB !! B = Some nodeB
                             /\ x ∈ exports nodeB))
  /\ (exists scopeA scopeB,
        resolve (cycleAB moduleA moduleB) "A" = Some scopeA
        /\ resolve (cycleAB moduleA moduleB) "B" = Some scopeB
        /\ NoDup scopeA
        /\ (forall x, x ∈ scopeA <->
               x ∈ declared moduleA \/ (x ∈ exports moduleB /\ x ∈ scopeB))).
Proof.
  split.
  - split; [reflexivity|].
    apply (proj1 resolve_cyclic_scope (cycleAB moduleA moduleB) "A" moduleA).
    reflexivity.
  - apply (proj2 resolve_cyclic_scope moduleA moduleB); reflexivity.
Defined.

End CycleAB.

(** * Further properties of instruction.ts *)

Section CallShapes.

Import Instruction.

(** ** The mapping of the text configuration *)

Lemma text_mapping_returns (n k : nat) :
  mapping TEXT_INTERPOLATE_CONFIG n = Ok k -> n = 2 * k + 1.
Proof.
  destruct (Nat.Even_or_Odd n) as [Heven|[j ->]].
  - by rewrite (text_mapping_even n Heven).
  - rewrite text_mapping_odd. by intros [= ->].
Qed.

(** X4. The mapping of [TEXT_INTERPOLATE_CONFIG] returns [k] exactly on the
    length [2k+1], and throws, with its odd-count message, exactly on the
    even lengths. *)
Theorem text_mapping_characterised (n k : nat) (msg : string) :
  (mapping TEXT_INTERPOLATE_CONFIG n = Ok k <-> n = 2 * k + 1)
  /\ (mapping TEXT_INTERPOLATE_CONFIG n = Throw msg <->
        Nat.Even n /\ msg = "Expected odd number of arguments").
Proof.
  destruct (Nat.Even_or_Odd n) as [Heven|[j ->]].
  - rewrite (text_mapping_even n Heven). split; split.
    + discriminate.
    + intros ->. destruct Heven as [j Hj]. lia.
    + intros [= <-]. by split.
    + by intros [_ ->].
  - rewrite text_mapping_odd. split; split.
    + intros [= ->]. done.
    + intros Hk. f_equal. lia.
    + discriminate.
    + intros [[i Hi] _]. lia.
Qed.

Lemma text_mapping_characterised_witness :
  mapping TEXT_INTERPOLATE_CONFIG 7 = Ok 3
  /\ mapping TEXT_INTERPOLATE_CONFIG 0 = Throw "Expected odd number of arguments".
Proof.
  split.
  - apply (proj1 (text_mapping_characterised 7 3 "")). simpl. lia.
  - apply (proj2 (text_mapping_characterised 0 0 "Expected odd number of arguments")).
    split; [exists 0; simpl; lia|reflexivity].
Defined.

(** ** The collapser *)

(** X5. The collapser returns a call exactly when the mapping returns a
    count that indexes a constant form or a variable form is configured. *)
Theorem callVariadic_returns_iff (config : VariadicInstructionConfig)
    (baseArgs interpolationArgs : list Expression) :
  returns (callVariadicInstructionExpr config baseArgs interpolationArgs)
  <-> exists n, mapping config (length interpolationArgs) = Ok n
                /\ (n < length (constant config) \/ variable config <> None).
Proof.
  split.
  - intros [e He]. unfold callVariadicInstructionExpr in He.
    destruct (mapping config (length interpolationArgs)) as [n|msg] eqn:Hn; [|done].
    exists n. split; [done|]. simpl in He.
    destruct (constant config !! n) as [instruction|] eqn:Hi.
    + left. by apply lookup_lt_Some in Hi.
    + right. by destruct (variable config).
  - intros (n & Hn & Hform).
    rewrite (callVariadicInstructionExpr_mapped _ _ _ n Hn).
    destruct (constant config !! n) as [instruction|] eqn:Hi; [by eexists|].
    apply lookup_ge_None_1 in Hi.
    destruct Hform as [Hlt|Hvar]; [lia|].
    destruct (variable config); [by eexists|done].
Qed.

Lemma callVariadic_returns_iff_witness :
  returns (callVariadicInstructionExpr
             {| constant := []; variable := Some Identifiers.property;
                mapping := fun n => Ok n |} [] [ReadVarExpr "x"]).
Proof.
  apply (proj2 (callVariadic_returns_iff
                  {| constant := []; variable := Some Identifiers.property;
                     mapping := fun n => Ok n |} [] [ReadVarExpr "x"])).
  exists 1. split; [reflexivity|]. right. discriminate.
Defined.

(** X6. A throw of the mapping reaches the caller of
    [callVariadicInstruction] unchanged, whatever forms are configured;
    with the text configuration that is the odd-count error, thrown
    exactly when the interpolation arguments are even in number, the empty
    list included, and an operation is returned exactly when they are odd. *)
Theorem callVariadicInstruction_mapping_throw (config : VariadicInstructionConfig)
    (baseArgs interpolationArgs : list Expression) :
  (forall msg, mapping config (length interpolationArgs) = Throw msg ->
     callVariadicInstruction config baseArgs interpolationArgs = Throw msg)
  /\ (callVariadicInstruction TEXT_INTERPOLATE_CONFIG baseArgs interpolationArgs
        = Throw "Expected odd number of arguments"
      <-> Nat.Even (length interpolationArgs))
  /\ (returns (callVariadicInstruction TEXT_INTERPOLATE_CONFIG baseArgs interpolationArgs)
      <-> Nat.Odd (length interpolationArgs)).
Proof.
  split.
  { intros msg Hmsg. unfold callVariadicInstruction, callVariadicInstructionExpr.
    by rewrite Hmsg. }
  destruct (Nat.Even_or_Odd (length interpolationArgs)) as [Heven|Hodd].
  - assert (callVariadicInstruction TEXT_INTERPOLATE_CONFIG baseArgs interpolationArgs
            = Throw "Expected odd number of arguments") as ->.
    { unfold callVariadicInstruction, callVariadicInstructionExpr.
      by rewrite (text_mapping_even _ Heven). }
    split; [done|]. split.
    + intros [op Hop]. discriminate Hop.
    + intros [j Hj]. destruct Heven as [i Hi]. lia.
  - destruct Hodd as [k Hk].
    assert (returns (callVariadicInstruction TEXT_INTERPOLATE_CONFIG
                       baseArgs interpolationArgs)) as Hret.
    { unfold callVariadicInstruction.
      rewrite (callVariadicInstructionExpr_mapped _ _ _ k)
        by (rewrite Hk; apply text_mapping_odd).
      destruct (constant TEXT_INTERPOLATE_CONFIG !! k); by eexists. }
    split; split.
    + intros Hthrow. destruct Hret as [op Hop]. congruence.
    + intros [i Hi]. lia.
    + intros _. by exists k.
    + done.
Qed.

Lemma callVariadicInstruction_mapping_throw_witness :
  callVariadicInstruction TEXT_INTERPOLATE_CONFIG [] []
    = Throw "Expected odd number of arguments"
  /\ returns (callVariadicInstruction TEXT_INTERPOLATE_CONFIG [] [ReadVarExpr "x"]).
Proof.
  split.
  - apply (proj1 (proj2 (callVariadicInstruction_mapping_throw
                           TEXT_INTERPOLATE_CONFIG [] []))).
    exists 0. reflexivity.
  - apply (proj2 (proj2 (callVariadicInstruction_mapping_throw
                           TEXT_INTERPOLATE_CONFIG [] [ReadVarExpr "x"]))).
    exists 0. reflexivity.
Defined.

Lemma text_constant_not_variable (k : nat) (instruction : ExternalReference) :
  constant TEXT_INTERPOLATE_CONFIG !! k = Some instruction ->
  instruction <> Identifiers.textInterpolateV.
Proof.
  intros Hi ->. do 9 (destruct k as [|k]; [discriminate Hi|]). discriminate Hi.
Qed.

(** X7. Whatever the text configuration emits keeps instruction and arity
    in step: a call to the constant form at index [k] passes the base
    arguments and exactly [2k+1] further arguments, and a call to the
    variable form passes the base arguments and one array, which only
    happens for more than 17 interpolation arguments. *)
Theorem text_call_shape (baseArgs interpolationArgs : list Expression)
    (e : Expression) :
  callVariadicInstructionExpr TEXT_INTERPOLATE_CONFIG baseArgs interpolationArgs = Ok e ->
  (exists k instruction,
      constant TEXT_INTERPOLATE_CONFIG !! k = Some instruction
      /\ callee e = Some instruction
      /\ callArgs e = baseArgs ++ interpolationArgs
      /\ length (callArgs e) = length baseArgs + (2 * k + 1))
  \/ (callee e = Some Identifiers.textInterpolateV
      /\ callArgs e = baseArgs ++ [literalArr interpolationArgs]
      /\ 17 < length interpolationArgs).
Proof.
  intros He.
  destruct (mapping TEXT_INTERPOLATE_CONFIG (length interpolationArgs))
    as [k|msg] eqn:Hk.
  - rewrite (callVariadicInstructionExpr_mapped _ _ _ k Hk) in He.
    apply text_mapping_returns in Hk.
    destruct (constant TEXT_INTERPOLATE_CONFIG !! k) as [instruction|] eqn:Hi.
    + left. exists k, instruction. injection He as <-. simpl.
      repeat split; try done. rewrite length_app. lia.
    + right. apply lookup_ge_None_1 in Hi. simpl in Hi.
      change (variable TEXT_INTERPOLATE_CONFIG)
        with (Some Identifiers.textInterpolateV) in He.
      injection He as <-. simpl. repeat split; try done. lia.
  - unfold callVariadicInstructionExpr in He. rewrite Hk in He. discriminate He.
Qed.

Lemma text_call_shape_witness :
  exists k instruction,
    constant TEXT_INTERPOLATE_CONFIG !! k = Some instruction
    /\ callee (callFn (importExpr Identifiers.textInterpolate1)
                 [literalNumber 0; literalString "a"; ReadVarExpr "x"; literalString "b"])
       = Some instruction
    /\ k = 1.
Proof.
  destruct (text_call_shape [literalNumber 0]
              [literalString "a"; ReadVarExpr "x"; literalString "b"]
              (callFn (importExpr Identifiers.textInterpolate1)
                 [literalNumber 0; literalString "a"; ReadVarExpr "x"; literalString "b"])
              eq_refl) as [(k & instruction & Hi & Hcallee & _ & Hlen)|(Hcallee & _)].
  - exists k, instruction. split; [done|]. split; [done|]. simpl in Hlen. lia.
  - discriminate Hcallee.
Defined.

End CallShapes.

Section Decoding.

Import Instruction.

(** X1. The positional argument list of the element helpers is
    unambiguous: two calls of [elementOrContainerBase] emit the same
    operation only for the same instruction, slot, tag, constant index and
    local reference index. The null literal written for an absent constant
    index is what keeps the last two apart. *)
Theorem elementOrContainerBase_inj (instruction instruction' : ExternalReference)
    (slot slot' : Z) (tag tag' : option string)
    (constIndex constIndex' localRefIndex localRefIndex' : option Z) :
  elementOrContainerBase instruction slot tag constIndex localRefIndex
    = elementOrContainerBase instruction' slot' tag' constIndex' localRefIndex' ->
  instruction = instruction' /\ slot = slot' /\ tag = tag'
  /\ constIndex = constIndex' /\ localRefIndex = localRefIndex'.
Proof.
  unfold elementOrContainerBase, call, createStatementOp, toStmt, callFn, importExpr,
    literalNumber, literalString, literalNullable.
  destruct tag, tag', constIndex, constIndex', localRefIndex, localRefIndex';
    intros Heq; by simplify_eq/=.
Qed.

Lemma elementOrContainerBase_inj_witness :
  elementOrContainerBase Identifiers.element 0 (Some "div") None (Some 2%Z)
    = element 0 "div" None (Some 2%Z)
  /\ (Identifiers.element = Identifiers.element /\ 0%Z = 0%Z /\ Some "div" = Some "div"
      /\ (None : option Z) = None /\ Some 2%Z = Some 2%Z).
Proof.
  split; [reflexivity|].
  apply (elementOrContainerBase_inj Identifiers.element Identifiers.element 0 0
           (Some "div") (Some "div") None None (Some 2%Z) (Some 2%Z)).
  reflexivity.
Defined.

(** X2. Leaving out the argument of [nextContext] loses nothing: the
    emitted call determines the step count. *)
Theorem nextContext_inj (steps steps' : Z) :
  nextContext steps = nextContext steps' -> steps = steps'.
Proof.
  unfold nextContext, callFn, literalNumber.
  repeat case_bool_decide; intros Heq; by simplify_eq/=.
Qed.

Lemma nextContext_inj_witness :
  nextContext 1 = callFn (importExpr Identifiers.nextContext) [] /\ 1%Z = 1%Z.
Proof.
  split; [reflexivity|]. apply (nextContext_inj 1 1). reflexivity.
Defined.

(** X3. Leaving out an empty initial value of [text] loses nothing: the
    emitted operation determines the slot and the initial value. *)
Theorem text_inj (slot slot' : Z) (initialValue initialValue' : string) :
  text slot initialValue = text slot' initialValue' ->
  slot = slot' /\ initialValue = initialValue'.
Proof.
  unfold text, call, createStatementOp, toStmt, callFn, literalNumber, literalString.
  repeat case_bool_decide; intros Heq; simplify_eq/=; try done.
Qed.

Lemma text_inj_witness :
  text 4 "" = call Identifiers.text [literalNumber 4] /\ (4%Z = 4%Z /\ "" = "").
Proof.
  split; [reflexivity|]. apply (text_inj 4 4 "" ""). reflexivity.
Defined.

End Decoding.

Section TextInterpolation.

Import Instruction.

Lemma opArgs_call (instruction : ExternalReference) (args : list Expression) :
  opArgs (call instruction args) = args.
Proof. reflexivity. Qed.

Lemma interpolationLoop_index (strings : list string) (pending : list Expression) :
  forall (idx : nat) (acc : list Expression),
    (interpolationLoop strings pending idx acc).1 = idx + length pending
    /\ length (interpolationLoop strings pending idx acc).2
       = length acc + 2 * length pending.
Proof.
  induction pending as [|e pending IH]; intros idx acc; simpl.
  - split; lia.
  - destruct (IH (S idx) (acc ++ [literalAt strings idx; e])) as [-> ->].
    rewrite length_app. simpl. split; lia.
Qed.

(** X11. The loop of [textInterpolate] pushes two arguments per
    expression and leaves [idx] at the number of expressions; on a
    well-shaped input that is the position of the last string, as the
    comment after the loop says, so the closing argument is its literal. *)
Theorem interpolationLoop_ends_at_last_string (strings : list string)
    (expressions : list Expression) :
  (interpolationLoop strings expressions 0 []).1 = length expressions
  /\ length (interpolationLoop strings expressions 0 []).2 = 2 * length expressions
  /\ (length strings = S (length expressions) ->
      exists s, last strings = Some s
                /\ literalAt strings (interpolationLoop strings expressions 0 []).1
                   = literalString s).
Proof.
  destruct (interpolationLoop_index strings expressions 0 []) as [Hidx Hlen].
  split; [done|]. split; [done|].
  intros Hshape. rewrite Hidx. simpl.
  destruct (lookup_lt_is_Some_2 strings (length expressions)) as [s Hs]; [lia|].
  exists s. split.
  - rewrite last_lookup, Hshape. done.
  - unfold literalAt. by rewrite Hs.
Qed.

Lemma interpolationLoop_ends_at_last_string_witness :
  exists s, last ["a"; "b"; "c"] = Some s
            /\ literalAt ["a"; "b"; "c"]
                 (interpolationLoop ["a"; "b"; "c"]
                    [ReadVarExpr "x"; ReadVarExpr "y"] 0 []).1
               = literalString s.
Proof.
  apply (proj2 (proj2 (interpolationLoop_ends_at_last_string
                         ["a"; "b"; "c"] [ReadVarExpr "x"; ReadVarExpr "y"]))).
  reflexivity.
Defined.

(** X8. Every operation [textInterpolate] returns passes an odd number of
    arguments, and never more than 17. *)
Theorem textInterpolate_arity (strings : list string) (expressions : list Expression)
    (op : Operation) :
  textInterpolate strings expressions = Ok op ->
  Nat.Odd (length (opArgs op)) /\ length (opArgs op) <= 17.
Proof.
  intros Hop.
  destruct (decide (length strings = S (length expressions))) as [Hshape|Hbad];
    [|by rewrite textInterpolate_invalid in Hop].
  destruct (decide (degenerate strings expressions)) as [[Hone ->]|Hnd].
  - destruct expressions as [|e [|? ?]]; simplify_eq/=.
    injection Hop as <-. simpl. split; [by exists 0|lia].
  - rewrite textInterpolate_general in Hop by done.
    destruct (constant TEXT_INTERPOLATE_CONFIG !! length expressions)
      as [instruction|] eqn:Hi; injection Hop as <-; rewrite opArgs_call.
    + apply lookup_lt_Some in Hi. simpl in Hi.
      rewrite length_interleave by done. split; [by eexists|lia].
    + simpl. split; [by exists 0|lia].
Qed.

Lemma textInterpolate_arity_witness :
  Nat.Odd (length (opArgs (call Identifiers.textInterpolate1
                             [literalString "a"; ReadVarExpr "x"; literalString "b"])))
  /\ length (opArgs (call Identifiers.textInterpolate1
                       [literalString "a"; ReadVarExpr "x"; literalString "b"])) <= 17.
Proof.
  apply (textInterpolate_arity ["a"; "b"] [ReadVarExpr "x"]). reflexivity.
Defined.

Lemma interleave_inj (strings : list string) :
  forall (expressions : list Expression) (strings' : list string)
         (expressions' : list Expression),
    length strings = S (length expressions) ->
    length strings' = S (length expressions') ->
    interleave strings expressions = interleave strings' expressions' ->
    strings = strings' /\ expressions = expressions'.
Proof.
  induction strings as [|s strings IH];
    intros [|e expressions] [|s' strings'] [|e' expressions'] Hlen Hlen' Heq;
    simplify_eq/=.
  - destruct strings, strings'; by simplify_eq/=.
  - destruct (IH expressions strings' expressions') as [-> ->]; done.
Qed.

(** X9. Outside the degenerate pattern the emitted operation determines
    the input: two well-shaped, non-degenerate inputs for which
    [textInterpolate] gives the same result have the same strings and the
    same expressions. *)
Theorem textInterpolate_inj (strings strings' : list string)
    (expressions expressions' : list Expression) :
  length strings = S (length expressions) ->
  length strings' = S (length expressions') ->
  ~ degenerate strings expressions ->
  ~ degenerate strings' expressions' ->
  textInterpolate strings expressions = textInterpolate strings' expressions' ->
  strings = strings' /\ expressions = expressions'.
Proof.
  intros Hlen Hlen' Hnd Hnd' Heq.
  rewrite !textInterpolate_general in Heq by done.
  destruct (constant TEXT_INTERPOLATE_CONFIG !! length expressions)
    as [instruction|] eqn:Hi;
    destruct (constant TEXT_INTERPOLATE_CONFIG !! length expressions')
      as [instruction'|] eqn:Hi'.
  - injection Heq as _ Hargs. by apply interleave_inj.
  - injection Heq as -> _. by apply text_constant_not_variable in Hi.
  - injection Heq as <- _. by apply text_constant_not_variable in Hi'.
  - injection Heq as Hargs. by apply interleave_inj.
Qed.

Lemma textInterpolate_inj_witness :
  textInterpolate ["a"; ""] [ReadVarExpr "x"]
    = Ok (call Identifiers.textInterpolate1
            [literalString "a"; ReadVarExpr "x"; literalString ""])
  /\ (["a"; ""] = ["a"; ""] /\ [ReadVarExpr "x"] = [ReadVarExpr "x"]).
Proof.
  split; [reflexivity|].
  apply (textInterpolate_inj ["a"; ""] ["a"; ""] [ReadVarExpr "x"] [ReadVarExpr "x"]);
    try reflexivity; intros [_ Hs]; discriminate Hs.
Defined.

(** X10. The degenerate pattern is where that fails: a lone string literal
    between two empty strings emits the very operation that the same
    string emits with no expression at all. *)
Theorem textInterpolate_degenerate_collision (s : string) :
  textInterpolate [""; ""] [literalString s] = textInterpolate [s] []
  /\ textInterpolate [s] [] = Ok (call Identifiers.textInterpolate [literalString s]).
Proof. split; reflexivity. Qed.

End TextInterpolation.
